(** * hseries: harmonic series sum threshold

    A shallow embedding of [hseries.c] and the properties of its
    threshold search.

    Numeric model.  The C program computes in [long double].  Here a
    [long double] is an exact rational or one of the IEEE special values
    (two infinities, not-a-number): arithmetic is exact, so neither rounding
    nor overflow to infinity of a finite computation is represented.  The
    exponential [expl] is the real exponential of the Standard Library.
    Integers are the 64-bit [long] and [unsigned long] of an LP64 platform,
    kept as [Z] with the wrap-around, the conversions and the undefined
    cases written out. *)

From Stdlib Require Import ZArith QArith Qround Qreals Reals Psatz Bool List.
From Stdlib Require Import String Ascii.
Import ListNotations.

Local Open Scope Z_scope.

(** ** Outcomes of a C computation *)

(** A computation returns a value, runs into behaviour the C standard leaves
    undefined, or (in the model only) exhausts the fuel given to a loop. *)
Inductive outcome (A : Type) : Type :=
| Ret (a : A)
| Undefined
| OutOfFuel.

Arguments Ret {A} a.
Arguments Undefined {A}.
Arguments OutOfFuel {A}.

Definition bind {A B : Type} (m : outcome A) (k : A -> outcome B) : outcome B :=
  match m with
  | Ret a => k a
  | Undefined => Undefined
  | OutOfFuel => OutOfFuel
  end.

Notation "x <- m ;; k" := (bind m (fun x => k))
  (at level 61, m at next level, right associativity).

(** ** Machine integers *)

Definition LONG_BITS : Z := 64.
Definition ULONG_MOD : Z := 2 ^ LONG_BITS.
Definition LONG_MAX : Z := 2 ^ (LONG_BITS - 1) - 1.

(** Arithmetic on [unsigned long] is modulo [2 ^ LONG_BITS]. *)
Definition wrap (z : Z) : Z := z mod ULONG_MOD.

(** Conversion of an [unsigned long] to [long] at a call (two's complement,
    as gcc defines it). *)
Definition to_long (n : Z) : Z :=
  if n <=? LONG_MAX then n else n - ULONG_MOD.

(** ** Long doubles *)

Inductive ldouble : Type :=
| Fin (q : Q)
| PInf
| NInf
| NaN.

Definition ld_opp (a : ldouble) : ldouble :=
  match a with
  | Fin q => Fin (- q)
  | PInf => NInf
  | NInf => PInf
  | NaN => NaN
  end.

Definition ld_add (a b : ldouble) : ldouble :=
  match a, b with
  | Fin x, Fin y => Fin (x + y)
  | NaN, _ | _, NaN => NaN
  | PInf, NInf | NInf, PInf => NaN
  | PInf, _ | _, PInf => PInf
  | NInf, _ | _, NInf => NInf
  end.

Definition ld_sub (a b : ldouble) : ldouble :=
  match a, b with
  | Fin x, Fin y => Fin (x - y)
  | _, _ => ld_add a (ld_opp b)
  end.

(** [1.0L / i] for an integer [i]: dividing by zero gives [+inf]. *)
Definition ld_recip (i : Z) : ldouble :=
  if i =? 0 then PInf else Fin (1 / inject_Z i).

(** Comparisons; every comparison with a NaN is false. *)
Definition ld_lt (a b : ldouble) : bool :=
  match a, b with
  | NaN, _ | _, NaN => false
  | Fin x, Fin y => negb (Qle_bool y x)
  | _, NInf => false
  | NInf, _ => true
  | PInf, _ => false
  | _, PInf => true
  end.

Definition ld_gt (a b : ldouble) : bool := ld_lt b a.

Definition ld_ge (a b : ldouble) : bool :=
  match a, b with
  | NaN, _ | _, NaN => false
  | Fin x, Fin y => Qle_bool y x
  | PInf, _ => true
  | _, NInf => true
  | _, PInf => false
  | NInf, _ => false
  end.

(** Equality of long doubles up to the representation of the fraction. *)
Definition ld_eq (a b : ldouble) : Prop :=
  match a, b with
  | Fin x, Fin y => (x == y)%Q
  | PInf, PInf | NInf, NInf | NaN, NaN => True
  | _, _ => False
  end.

Infix "=ld=" := ld_eq (at level 70, no associativity).

(** ** Constants of the program *)

Definition DELTA : Q := 1 # 1000000000.

Definition EM_N_RATIO : Q := 564 # 1000.
Definition EM_N_RATIO_MEDIUM : Q := 5618 # 10000.
Definition EM_N_RATIO_LARGE : Q := 56147 # 100000.
Definition EM_N_RATIO_VERY_LARGE : Q := 56146 # 100000.
Definition EM_N_RATIO_HUGE : Q := 5614596 # 10000000.
Definition EM_N_RATIO_COLOSSAL : Q := 5614595 # 10000000.

(** ** The summation helper *)

(** The [for] loop of [harmonicSeriesEx]: [i] runs from its current value
    while [i <= nEnd]; the increment of [i = LONG_MAX] overflows. *)
Fixpoint sum_for (fuel : nat) (i nEnd : Z) (sum : ldouble) : outcome ldouble :=
  match fuel with
  | O => OutOfFuel
  | S fuel' =>
      if i <=? nEnd then
        let sum' := ld_add sum (ld_recip i) in
        if i =? LONG_MAX then Undefined
        else sum_for fuel' (i + 1) nEnd sum'
      else Ret sum
  end.

Definition harmonicSeriesEx (nStart nEnd : Z) : outcome ldouble :=
  if (nStart =? 0) || (nEnd =? 0) || (nStart >? nEnd) then Ret (Fin 0)
  else sum_for (S (Z.to_nat (nEnd - nStart + 1))) nStart nEnd (Fin 0).

Definition harmonicSeries (n : Z) : outcome ldouble :=
  harmonicSeriesEx 1 n.

(** ** The threshold search *)

(** The ratio chosen by the chain of comparisons on [M]. *)
Definition em_ratio (M : ldouble) : Q :=
  if ld_ge M (Fin 20) then EM_N_RATIO_COLOSSAL
  else if ld_ge M (Fin 18) then EM_N_RATIO_HUGE
  else if ld_ge M (Fin 16) then EM_N_RATIO_VERY_LARGE
  else if ld_ge M (Fin 12) then EM_N_RATIO_LARGE
  else if ld_ge M (Fin 9) then EM_N_RATIO_MEDIUM
  else EM_N_RATIO.

(** Truncation of a real toward zero. *)
Definition Rtrunc (x : R) : Z :=
  if Rle_dec 0 x then Int_part x else - Int_part (- x).

(** The cast [(unsigned long) x]: the fraction is discarded; the behaviour
    is undefined when the integral part is not representable. *)
Definition cast_ulong (x : R) : outcome Z :=
  let z := Rtrunc x in
  if (0 <=? z) && (z <? ULONG_MOD) then Ret z else Undefined.

(** [(unsigned long)(expl(M) * ratio)] *)
Definition initial_guess (M : ldouble) : outcome Z :=
  match M with
  | Fin q => cast_ulong (exp (Q2R q) * Q2R (em_ratio M))
  | NInf => Ret 0
  | PInf | NaN => Undefined
  end.

Record state : Type := mkState {
  st_n : Z;
  st_sum : ldouble;
  st_G_sum : ldouble
}.

(** [(sum - M) > -DELTA && n > 0] *)
Definition loop_cond (M : ldouble) (s : state) : bool :=
  ld_gt (ld_sub (st_sum s) M) (Fin (- DELTA)) && (st_n s >? 0).

(** [G_sum = sum; sum -= 1.0L/n; n--;] *)
Definition loop_body (s : state) : state :=
  {| st_n := wrap (st_n s - 1);
     st_sum := ld_sub (st_sum s) (ld_recip (st_n s));
     st_G_sum := st_sum s |}.

Fixpoint while_loop (fuel : nat) (M : ldouble) (s : state) : outcome state :=
  match fuel with
  | O => OutOfFuel
  | S fuel' =>
      if loop_cond M s then while_loop fuel' M (loop_body s) else Ret s
  end.

(** The search once the initial guess [n0] is known: the full summation,
    the refinement loop and the return of [n + 1UL].  The result pairs the
    returned value with the final content of the global [G_sum]. *)
Definition refine_from (M : ldouble) (n0 : Z) : outcome (Z * ldouble) :=
  sum0 <- harmonicSeries (to_long n0) ;;
  s <- while_loop (S (Z.to_nat n0)) M
         {| st_n := n0; st_sum := sum0; st_G_sum := sum0 |} ;;
  Ret (wrap (st_n s + 1), st_G_sum s).

Definition hseriesThreshold (M : ldouble) : outcome (Z * ldouble) :=
  n0 <- initial_guess M ;;
  refine_from M n0.

(** ** The command line *)

(** What [main] does that can be observed: the lines it prints and the one
    call of the threshold search.  (The diagnostic lines of the verbose
    build are not recorded.) *)
Inductive event : Type :=
| PrintUsage (prog : string)
| PrintInvalidInput (prog : string)
| PrintNegative
| CallThreshold (M : ldouble)
| PrintThreshold (M : ldouble) (N : Z)
| PrintSum (N : Z) (G : ldouble).

Section Main.

(** [strtold] of the C library: the converted value and the part of the
    string left at the end pointer. *)
Variable strtold : string -> ldouble * string.

Definition main (argv : list string) : list event * outcome Z :=
  if negb (Nat.eqb (List.length argv) 2) then
    ([PrintUsage (hd EmptyString argv)], Ret (-1))
  else
    let (M, rest) := strtold (nth 1 argv EmptyString) in
    if negb (String.eqb rest EmptyString) then
      ([PrintInvalidInput (hd EmptyString argv)], Ret (-1))
    else if ld_lt M (Fin 0) then
      ([PrintNegative], Ret (-1))
    else
      match hseriesThreshold M with
      | Ret (N, G) =>
          ([CallThreshold M; PrintThreshold M N; PrintSum N G], Ret 0)
      | Undefined => ([CallThreshold M], Undefined)
      | OutOfFuel => ([CallThreshold M], OutOfFuel)
      end.

End Main.

(** Does the trace contain a call of the search? *)
Definition calls_threshold (t : list event) : bool :=
  existsb (fun e => match e with CallThreshold _ => true | _ => false end) t.

(** *** A model of the library's [strtold]

    The decimal forms, [inf], [infinity] and [nan] (in any case), after
    optional white space and sign, as the C standard describes them.
    Hexadecimal constants and [nan(...)] are not covered.  When no
    conversion can be made the value is zero and the whole string is left. *)

Definition is_space (c : ascii) : bool :=
  let k := nat_of_ascii c in
  Nat.eqb k 32 || (Nat.leb 9 k && Nat.leb k 13).

Definition digit_of (c : ascii) : option Z :=
  let k := Z.of_nat (nat_of_ascii c) in
  if (48 <=? k) && (k <=? 57) then Some (k - 48) else None.

Definition to_lower (c : ascii) : ascii :=
  let k := nat_of_ascii c in
  if Nat.leb 65 k && Nat.leb k 90 then ascii_of_nat (k + 32) else c.

Fixpoint skip_spaces (s : string) : string :=
  match s with
  | String c s' => if is_space c then skip_spaces s' else s
  | EmptyString => s
  end.

(** The rest of [s] after the prefix [p], compared without case. *)
Fixpoint strip_prefix_ci (p s : string) : option string :=
  match p, s with
  | EmptyString, _ => Some s
  | String a p', String b s' =>
      if Ascii.eqb a (to_lower b) then strip_prefix_ci p' s' else None
  | String _ _, EmptyString => None
  end.

(** Reads a run of digits: the number so far, how many were read, the rest. *)
Fixpoint read_digits (s : string) (acc : Z) (cnt : nat) : Z * nat * string :=
  match s with
  | String c s' =>
      match digit_of c with
      | Some d => read_digits s' (10 * acc + d) (S cnt)
      | None => (acc, cnt, s)
      end
  | EmptyString => (acc, cnt, s)
  end.

Definition read_sign (s : string) : bool * string :=
  match s with
  | String "-"%char r => (true, r)
  | String "+"%char r => (false, r)
  | _ => (false, s)
  end.

(** An exponent part [e], sign, digits; without a digit nothing is consumed. *)
Definition read_exponent (s : string) : Z * string :=
  match s with
  | String c r =>
      if Ascii.eqb (to_lower c) "e"%char then
        let (neg, r1) := read_sign r in
        match read_digits r1 0 0 with
        | (_, O, _) => (0, s)
        | (e, S _, r2) => (if neg then - e else e, r2)
        end
      else (0, s)
  | EmptyString => (0, s)
  end.

Definition strtold_model (s : string) : ldouble * string :=
  let (neg, s2) := read_sign (skip_spaces s) in
  let sign v := if neg then ld_opp v else v in
  match strip_prefix_ci "infinity" s2 with
  | Some r => (sign PInf, r)
  | None =>
  match strip_prefix_ci "inf" s2 with
  | Some r => (sign PInf, r)
  | None =>
  match strip_prefix_ci "nan" s2 with
  | Some r => (NaN, r)
  | None =>
      match read_digits s2 0 0 with
      | (ip, ni, s3) =>
          match (match s3 with
                 | String "."%char r => read_digits r ip 0
                 | _ => (ip, O, s3)
                 end) with
          | (mant, nf, s4) =>
              if Nat.eqb (ni + nf) 0 then (Fin 0, s)
              else
                let (e, s5) := read_exponent s4 in
                (sign (Fin (inject_Z mant * (10 # 1) ^ (e - Z.of_nat nf))), s5)
          end
      end
  end end end.

(** ** The harmonic numbers

    [H k] is the sum of [1/i] for [i] from 1 to [k], by the recurrence
    [H k = H (k-1) + 1/k]. *)
Fixpoint H (k : nat) : Q :=
  match k with
  | O => 0
  | S k' => H k' + (1 # Pos.of_succ_nat k')
  end.

(** The sum of the terms [1.0L/i] for the [len] integers from [start] on,
    the term of the largest [i] being the last one added. *)
Fixpoint ld_sum_asc (start : Z) (len : nat) : ldouble :=
  match len with
  | O => Fin 0
  | S len' =>
      ld_add (ld_sum_asc start len') (ld_recip (start + Z.of_nat len'))
  end.

(** The state of the search after some iterations of the refinement loop. *)
Inductive reaches (M : ldouble) : state -> state -> Prop :=
| reaches_here (s : state) : reaches M s s
| reaches_step (s s' : state) :
    loop_cond M s = true -> reaches M (loop_body s) s' -> reaches M s s'.

(** ** Notions used in the statements and proofs *)

(** The accumulation as the loop performs it, from the smallest [i] up. *)
Fixpoint accumulate (acc : ldouble) (i : Z) (len : nat) : ldouble :=
  match len with
  | O => acc
  | S len' => accumulate (ld_add acc (ld_recip i)) (i + 1) len'
  end.

(** The sum of [1/i] for the [len] integers from [start] on, as a
    rational. *)
Fixpoint recip_sum (start : Z) (len : nat) : Q :=
  match len with
  | O => 0
  | S len' => recip_sum start len' + 1 / inject_Z (start + Z.of_nat len')
  end.

(** The running sum is the harmonic number of the current [n]. *)
Definition sum_invariant (s : state) : Prop :=
  0 <= st_n s < ULONG_MOD /\ st_sum s =ld= Fin (H (Z.to_nat (st_n s))).

(** What the search has established when it is in state [s], having
    started from the guess [n0] with threshold [m]. *)
Definition search_invariant (m : Q) (n0 : Z) (s : state) : Prop :=
  sum_invariant s /\ st_n s <= n0 /\
  (st_n s < n0 ->
     st_G_sum s =ld= Fin (H (Z.to_nat (st_n s + 1))) /\
     (m - DELTA < H (Z.to_nat (st_n s + 1)))%Q) /\
  (st_n s = n0 -> st_G_sum s =ld= Fin (H (Z.to_nat n0))).

(** [N] is the first index whose harmonic number exceeds [m], as the
    contract of the search words it. *)
Definition minimal_crossing (m : Q) (N : Z) : Prop :=
  (m < H (Z.to_nat N))%Q /\ (H (Z.to_nat (N - 1)) <= m)%Q.

(** [N] is the first index from 1 on whose harmonic number exceeds
    [m - DELTA]. *)
Definition crossing_within_DELTA (m : Q) (N : Z) : Prop :=
  1 <= N /\
  (m - DELTA < H (Z.to_nat N))%Q /\
  (forall k, 1 <= k -> (m - DELTA < H (Z.to_nat k))%Q -> N <= k).

(** *** Rational lower bounds of the exponential *)

(** The terms [x^i / i!] and their partial sums, in the rationals. *)
Fixpoint taylor_term (x : Q) (i : nat) : Q :=
  match i with
  | O => 1
  | S i' => taylor_term x i' * x / inject_Z (Z.of_nat i)
  end.

Fixpoint taylor_sum (x : Q) (n : nat) : Q :=
  match n with
  | O => 1
  | S n' => taylor_sum x n' + taylor_term x n
  end.

(** Rounding a rational down to twenty decimals keeps the numbers small. *)
Definition SCALE : positive := 10 ^ 20.

Definition round_down (q : Q) : Q :=
  Qfloor (q * inject_Z (Z.pos SCALE)) # SCALE.

(** How many terms of the series are taken for [e^(1/k)]. *)
Definition taylor_order (k : nat) : nat :=
  if (k <? 8)%nat then 12%nat else 6%nat.

(** A rational below [e^(H k)]. *)
Fixpoint exp_H_lower (k : nat) : Q :=
  match k with
  | O => 1
  | S k' =>
      round_down
        (exp_H_lower k' * taylor_sum (1 # Pos.of_succ_nat k') (taylor_order k))
  end.

Definition BASE : nat := 96.

(** The rational [k + 1/2 + 1/(24 k)]. *)
Definition fQ (k : nat) : Q :=
  inject_Z (Z.of_nat k) + (1 # 2) + / inject_Z (24 * Z.of_nat k).

(** Starting from [L], a lower bound of [e^(H k)], checks
    [j <= 0.5614595 * (lower bound of e^(H j))] for the next [count] values of
    [j] and the comparison with [fQ] at the last one. *)
Fixpoint check_from (k : nat) (L : Q) (count : nat) : bool :=
  match count with
  | O => Qle_bool (fQ k) (EM_N_RATIO_COLOSSAL * L)
  | S count' =>
      let L' :=
        round_down
          (L * taylor_sum (1 # Pos.of_succ_nat k) (taylor_order (S k))) in
      Qle_bool (inject_Z (Z.of_nat (S k))) (EM_N_RATIO_COLOSSAL * L')
      && check_from (S k) L' count'
  end.

(** The comparison sequence [k + 1/2 + 1/(24 k)]. *)
Definition fR (k : R) : R := k + / 2 + / (24 * k).

(** * Properties *)

(** ** Long doubles *)

Lemma ld_eq_refl (a : ldouble) : a =ld= a.
Proof. destruct a; simpl; auto. reflexivity. Qed.

Lemma ld_eq_Fin_r (a : ldouble) (q : Q) :
  a =ld= Fin q -> exists p, a = Fin p /\ (p == q)%Q.
Proof. destruct a; simpl; intros E; try contradiction. now exists q0. Qed.

Lemma ld_recip_pos (i : Z) : 0 < i -> ld_recip i = Fin (1 / inject_Z i).
Proof.
  intros Hi. unfold ld_recip.
  destruct (Z.eqb_spec i 0) as [E | _]; [lia | reflexivity].
Qed.

Lemma recip_succ (k : nat) :
  (1 / inject_Z (1 + Z.of_nat k) == 1 # Pos.of_succ_nat k)%Q.
Proof.
  replace (1 + Z.of_nat k) with (Z.pos (Pos.of_succ_nat k))
    by (rewrite Zpos_P_of_succ_nat; lia).
  reflexivity.
Qed.

Lemma ld_gt_Fin (x y : Q) : ld_gt (Fin x) (Fin y) = true <-> (y < x)%Q.
Proof.
  unfold ld_gt, ld_lt. rewrite negb_true_iff.
  destruct (Qle_bool x y) eqn:E.
  - apply Qle_bool_iff in E. split; [discriminate | intros L; lra].
  - split; [intros _ | reflexivity].
    apply Qnot_le_lt. intros L. apply Qle_bool_iff in L. congruence.
Qed.

Lemma ld_ge_Fin (x y : Q) : ld_ge (Fin x) (Fin y) = true <-> (y <= x)%Q.
Proof. apply Qle_bool_iff. Qed.

(** ** The harmonic numbers *)

Lemma H_step (k : nat) : (H k < H (S k))%Q.
Proof.
  simpl. assert (0 < 1 # Pos.of_succ_nat k)%Q by reflexivity. lra.
Qed.

Lemma H_mono (j k : nat) : (j <= k)%nat -> (H j <= H k)%Q.
Proof.
  induction 1 as [| k _ IH]; [lra |].
  pose proof (H_step k). lra.
Qed.

Lemma H_nonneg (k : nat) : (0 <= H k)%Q.
Proof. apply (H_mono 0 k). lia. Qed.

Lemma H_ge_1 (k : nat) : (1 <= k)%nat -> (1 <= H k)%Q.
Proof. intros L. apply (H_mono 1 k) in L. simpl in L. lra. Qed.

(** ** The summation helper *)

Lemma accumulate_last (len : nat) : forall acc i,
  accumulate acc i (S len) =
  ld_add (accumulate acc i len) (ld_recip (i + Z.of_nat len)).
Proof.
  induction len as [| len IH]; intros acc i.
  - simpl. now rewrite Z.add_0_r.
  - change (accumulate acc i (S (S len)))
      with (accumulate (ld_add acc (ld_recip i)) (i + 1) (S len)).
    rewrite IH. simpl accumulate.
    do 2 f_equal. lia.
Qed.

Lemma accumulate_sum_asc (start : Z) (len : nat) :
  accumulate (Fin 0) start len = ld_sum_asc start len.
Proof.
  induction len as [| len IH]; [reflexivity |].
  rewrite accumulate_last, IH. reflexivity.
Qed.

(** With one unit of fuel more than there are terms the loop finishes, and
    more fuel changes nothing. *)
Lemma sum_for_accumulate (len : nat) : forall fuel i nEnd acc,
  nEnd = i + Z.of_nat len - 1 -> nEnd < LONG_MAX -> (len < fuel)%nat ->
  sum_for fuel i nEnd acc = Ret (accumulate acc i len).
Proof.
  induction len as [| len IH]; intros fuel i nEnd acc E B F;
    (destruct fuel as [| fuel]; [lia |]); simpl.
  - destruct (Z.leb_spec i nEnd); [lia | reflexivity].
  - destruct (Z.leb_spec i nEnd); [| lia].
    destruct (Z.eqb_spec i LONG_MAX); [lia |].
    apply IH; lia.
Qed.

Lemma harmonicSeriesEx_guard (nStart nEnd : Z) :
  nStart = 0 \/ nEnd = 0 \/ nStart > nEnd ->
  harmonicSeriesEx nStart nEnd = Ret (Fin 0).
Proof.
  intros G. unfold harmonicSeriesEx.
  destruct (Z.eqb_spec nStart 0), (Z.eqb_spec nEnd 0), (Z.gtb_spec nStart nEnd);
    simpl; try reflexivity; lia.
Qed.

Lemma harmonicSeriesEx_sum (nStart nEnd : Z) :
  nStart <> 0 -> nEnd <> 0 -> nStart <= nEnd -> nEnd < LONG_MAX ->
  harmonicSeriesEx nStart nEnd =
  Ret (ld_sum_asc nStart (Z.to_nat (nEnd - nStart + 1))).
Proof.
  intros S0 E0 L B. unfold harmonicSeriesEx.
  destruct (Z.eqb_spec nStart 0), (Z.eqb_spec nEnd 0), (Z.gtb_spec nStart nEnd);
    simpl orb; cbv iota; try lia.
  rewrite <- accumulate_sum_asc.
  apply sum_for_accumulate; lia.
Qed.

Lemma ld_sum_asc_H (k : nat) :
  exists q, ld_sum_asc 1 k = Fin q /\ (q == H k)%Q.
Proof.
  induction k as [| k (q & E & Q)].
  - exists 0%Q. split; reflexivity.
  - exists (q + 1 / inject_Z (1 + Z.of_nat k))%Q. split.
    + cbn [ld_sum_asc]. rewrite E, ld_recip_pos by lia. reflexivity.
    + cbn [H]. rewrite Q, recip_succ. reflexivity.
Qed.

Lemma harmonicSeries_H (n : Z) :
  0 <= n < LONG_MAX ->
  exists q, harmonicSeries n = Ret (Fin q) /\ (q == H (Z.to_nat n))%Q.
Proof.
  intros [L B]. unfold harmonicSeries.
  destruct (Z.eq_dec n 0) as [-> | NZ].
  - exists 0%Q. split; reflexivity.
  - rewrite harmonicSeriesEx_sum by lia.
    replace (n - 1 + 1) with n by lia.
    destruct (ld_sum_asc_H (Z.to_nat n)) as (q & E & Q).
    exists q. now rewrite E.
Qed.

(** ** The refinement loop *)

Lemma ULONG_MOD_pos : 0 < ULONG_MOD.
Proof. reflexivity. Qed.

Lemma LONG_MAX_lt_ULONG_MOD : LONG_MAX < ULONG_MOD.
Proof. reflexivity. Qed.

Lemma wrap_small (z : Z) : 0 <= z < ULONG_MOD -> wrap z = z.
Proof. apply Z.mod_small. Qed.

Lemma wrap_pred (n : Z) : 0 < n -> 0 <= wrap (n - 1) <= n - 1.
Proof.
  intros P. unfold wrap. split.
  - apply Z.mod_pos_bound, ULONG_MOD_pos.
  - apply Z.mod_le; [lia | apply ULONG_MOD_pos].
Qed.

Lemma to_long_small (n : Z) : n <= LONG_MAX -> to_long n = n.
Proof. intros L. unfold to_long. destruct (Z.leb_spec n LONG_MAX); lia. Qed.

Lemma loop_cond_true (M : ldouble) (s : state) :
  loop_cond M s = true <->
  ld_gt (ld_sub (st_sum s) M) (Fin (- DELTA)) = true /\ 0 < st_n s.
Proof.
  unfold loop_cond. rewrite andb_true_iff.
  destruct (Z.gtb_spec (st_n s) 0); intuition (try lia; try discriminate).
Qed.

(** Each iteration decrements [n] by one. *)
Lemma loop_body_decrements (M : ldouble) (s : state) :
  loop_cond M s = true -> st_n s <= ULONG_MOD ->
  st_n (loop_body s) = st_n s - 1.
Proof.
  intros C B. apply loop_cond_true in C as [_ P].
  simpl. apply wrap_small. lia.
Qed.

(** The loop is not entered when [n] is zero. *)
Lemma loop_cond_zero (M : ldouble) (s : state) :
  st_n s <= 0 -> loop_cond M s = false.
Proof.
  intros Z0. destruct (loop_cond M s) eqn:C; [| reflexivity].
  apply loop_cond_true in C. lia.
Qed.

Lemma reaches_trans (M : ldouble) (a b c : state) :
  reaches M a b -> reaches M b c -> reaches M a c.
Proof.
  induction 1 as [| a b C _ IH]; [auto |].
  intros R. apply reaches_step; auto.
Qed.

(** The invariant rule of the loop. *)
Lemma reaches_invariant (M : ldouble) (P : state -> Prop) :
  (forall s, P s -> loop_cond M s = true -> P (loop_body s)) ->
  forall s s', reaches M s s' -> P s -> P s'.
Proof.
  intros Step s s' R. induction R as [| s s' C _ IH]; auto.
Qed.

(** Fuel above [n] is enough: the loop returns the state it has reached
    when its condition fails. *)
Lemma while_loop_returns (M : ldouble) (fuel : nat) : forall s,
  (Z.to_nat (st_n s) < fuel)%nat ->
  exists s', while_loop fuel M s = Ret s' /\ reaches M s s' /\
             loop_cond M s' = false.
Proof.
  induction fuel as [| fuel IH]; intros s F; [lia |].
  simpl. destruct (loop_cond M s) eqn:C.
  - pose proof C as C'. apply loop_cond_true in C' as [_ P].
    destruct (IH (loop_body s)) as (s' & E & R & X).
    + simpl. pose proof (wrap_pred (st_n s) P). lia.
    + exists s'. repeat split; auto. now apply reaches_step.
  - exists s. repeat split; auto. constructor.
Qed.

Lemma while_loop_fuel (M : ldouble) (fuel : nat) : forall s s' extra,
  while_loop fuel M s = Ret s' -> while_loop (fuel + extra) M s = Ret s'.
Proof.
  induction fuel as [| fuel IH]; intros s s' extra; simpl; [discriminate |].
  destruct (loop_cond M s); auto.
Qed.

Lemma reaches_n_le (M : ldouble) (s s' : state) :
  reaches M s s' -> 0 <= st_n s -> 0 <= st_n s' <= st_n s.
Proof.
  induction 1 as [| s s' C _ IH]; intros P; [lia |].
  apply loop_cond_true in C as [_ C].
  pose proof (wrap_pred (st_n s) C) as W. simpl in IH. lia.
Qed.

Lemma H_pred (n : Z) :
  0 < n -> (H (Z.to_nat n) - 1 / inject_Z n == H (Z.to_nat (n - 1)))%Q.
Proof.
  intros P.
  replace (Z.to_nat n) with (S (Z.to_nat (n - 1))) by lia.
  cbn [H]. rewrite <- recip_succ.
  replace (1 + Z.of_nat (Z.to_nat (n - 1))) with n by lia.
  ring.
Qed.

Lemma sum_invariant_body (M : ldouble) (s : state) :
  sum_invariant s -> loop_cond M s = true -> sum_invariant (loop_body s).
Proof.
  intros [B E] C.
  pose proof (loop_body_decrements M s C ltac:(lia)) as D.
  apply loop_cond_true in C as [_ P].
  unfold sum_invariant. rewrite D. split; [lia |].
  apply ld_eq_Fin_r in E as (q & Eq & Q).
  cbn [loop_body st_sum]. rewrite Eq, ld_recip_pos by lia.
  cbn [ld_sub ld_eq]. rewrite Q. now apply H_pred.
Qed.

Lemma loop_cond_sum (m : Q) (s : state) :
  sum_invariant s ->
  (loop_cond (Fin m) s = true <->
   (m - DELTA < H (Z.to_nat (st_n s)))%Q /\ 0 < st_n s).
Proof.
  intros [_ E]. apply ld_eq_Fin_r in E as (q & Eq & Q).
  rewrite loop_cond_true, Eq. cbn [ld_sub]. rewrite ld_gt_Fin, <- Q.
  split; intros [A B]; split; auto; lra.
Qed.

Lemma search_invariant_body (m : Q) (n0 : Z) (s : state) :
  search_invariant m n0 s -> loop_cond (Fin m) s = true ->
  search_invariant m n0 (loop_body s).
Proof.
  intros (I & L & _ & _) C.
  pose proof (sum_invariant_body _ _ I C) as I'.
  pose proof (loop_body_decrements _ _ C ltac:(destruct I; lia)) as D.
  apply (loop_cond_sum m s I) in C as [G P].
  unfold search_invariant. rewrite D.
  replace (st_n s - 1 + 1) with (st_n s) by lia.
  repeat split; try lia; try apply I'; auto.
  cbn [loop_body st_G_sum]. apply I.
Qed.

(** The search from a guess [n0] that a [long] holds: the value returned
    and the sum left in [G_sum]. *)
Lemma refine_from_spec (m : Q) (n0 : Z) :
  0 <= n0 < LONG_MAX ->
  exists N G,
    refine_from (Fin m) n0 = Ret (N, G) /\
    1 <= N <= n0 + 1 /\
    (N = 1 \/ (H (Z.to_nat (N - 1)) <= m - DELTA)%Q) /\
    (N <= n0 ->
       G =ld= Fin (H (Z.to_nat N)) /\ (m - DELTA < H (Z.to_nat N))%Q) /\
    (N = n0 + 1 -> G =ld= Fin (H (Z.to_nat n0))).
Proof.
  intros B. pose proof LONG_MAX_lt_ULONG_MOD as LU.
  unfold refine_from. rewrite to_long_small by lia.
  destruct (harmonicSeries_H n0 B) as (q & -> & Q).
  cbn [bind].
  set (s0 := {| st_n := n0; st_sum := Fin q; st_G_sum := Fin q |}).
  destruct (while_loop_returns (Fin m) (S (Z.to_nat n0)) s0)
    as (s & -> & R & X); [simpl; lia |].
  cbn [bind].
  assert (I0 : search_invariant m n0 s0).
  { unfold search_invariant, sum_invariant; simpl. repeat split; auto; lia. }
  pose proof (reaches_invariant (Fin m) (search_invariant m n0)
                (search_invariant_body m n0) s0 s R I0) as (I & L & Lt & Eq).
  pose proof I as [Bs _].
  exists (wrap (st_n s + 1)), (st_G_sum s).
  rewrite wrap_small by lia.
  replace (st_n s + 1 - 1) with (st_n s) by lia.
  repeat split; try lia.
  - destruct (Z.eq_dec (st_n s) 0) as [-> | NZ]; [now left | right].
    apply Qnot_lt_le. intros A.
    assert (C : loop_cond (Fin m) s = true)
      by (apply (loop_cond_sum m s I); split; [exact A | lia]).
    congruence.
  - apply Lt. lia.
  - apply Lt. lia.
  - intros E. apply Eq. lia.
Qed.

(** ** The initial guess *)

Local Open Scope R_scope.

Lemma Rtrunc_floor (x : R) (k : Z) :
  IZR k <= x < IZR k + 1 -> (0 <= k)%Z -> Rtrunc x = k.
Proof.
  intros [L U] P. unfold Rtrunc.
  destruct (Rle_dec 0 x) as [_ | N].
  - symmetry. apply Int_part_spec. lra.
  - apply IZR_le in P. lra.
Qed.

Lemma Rtrunc_bounds (x : R) :
  0 <= x -> IZR (Rtrunc x) <= x < IZR (Rtrunc x) + 1.
Proof.
  intros P. unfold Rtrunc. destruct (Rle_dec 0 x) as [_ | N]; [| lra].
  pose proof (base_Int_part x). lra.
Qed.

Lemma cast_ulong_floor (x : R) (k : Z) :
  IZR k <= x < IZR k + 1 -> (0 <= k < ULONG_MOD)%Z -> cast_ulong x = Ret k.
Proof.
  intros B [P U]. unfold cast_ulong. rewrite (Rtrunc_floor x k B P).
  destruct (Z.leb_spec 0 k), (Z.ltb_spec k ULONG_MOD); simpl; auto; lia.
Qed.

Lemma cast_ulong_inv (x : R) (k : Z) :
  0 <= x -> cast_ulong x = Ret k ->
  (0 <= k < ULONG_MOD)%Z /\ IZR k <= x < IZR k + 1.
Proof.
  intros P. unfold cast_ulong.
  destruct (Z.leb_spec 0 (Rtrunc x)), (Z.ltb_spec (Rtrunc x) ULONG_MOD);
    simpl; try discriminate.
  intros [= <-]. split; [lia | now apply Rtrunc_bounds].
Qed.

Lemma Q2R_ratio_pos (M : ldouble) : 0 < Q2R (em_ratio M).
Proof.
  replace 0 with (Q2R 0) by (unfold Q2R; simpl; lra).
  apply Qlt_Rlt. unfold em_ratio.
  repeat match goal with |- context [if ?b then _ else _] => destruct b end;
    reflexivity.
Qed.

(** Every ratio of the table is at least the smallest one. *)
Lemma em_ratio_min (M : ldouble) : (EM_N_RATIO_COLOSSAL <= em_ratio M)%Q.
Proof.
  unfold em_ratio.
  repeat match goal with |- context [if ?b then _ else _] => destruct b end;
    discriminate.
Qed.

Lemma em_ratio_max (M : ldouble) : (em_ratio M <= EM_N_RATIO)%Q.
Proof.
  unfold em_ratio.
  repeat match goal with |- context [if ?b then _ else _] => destruct b end;
    discriminate.
Qed.

Lemma guess_product_pos (q : Q) : 0 < exp (Q2R q) * Q2R (em_ratio (Fin q)).
Proof. apply Rmult_lt_0_compat; [apply exp_pos | apply Q2R_ratio_pos]. Qed.

Lemma initial_guess_floor (q : Q) (k : Z) :
  IZR k <= exp (Q2R q) * Q2R (em_ratio (Fin q)) < IZR k + 1 ->
  (0 <= k < ULONG_MOD)%Z -> initial_guess (Fin q) = Ret k.
Proof. apply cast_ulong_floor. Qed.

Lemma initial_guess_inv (q : Q) (k : Z) :
  initial_guess (Fin q) = Ret k ->
  (0 <= k < ULONG_MOD)%Z /\
  IZR k <= exp (Q2R q) * Q2R (em_ratio (Fin q)) < IZR k + 1.
Proof. apply cast_ulong_inv. left. apply guess_product_pos. Qed.

Lemma Q2R_0 : Q2R 0 = 0.
Proof. unfold Q2R; simpl; lra. Qed.

Lemma Q2R_1 : Q2R 1 = 1.
Proof. unfold Q2R; simpl; lra. Qed.

Lemma exp_1_gt_2 : 2 < exp 1.
Proof. pose proof (exp_ineq1 1). lra. Qed.

Lemma exp_le (x y : R) : x <= y -> exp x <= exp y.
Proof.
  intros [L | ->]; [left; now apply exp_increasing | right; reflexivity].
Qed.

Lemma exp_INR (k : nat) : exp (INR k) = exp 1 ^ k.
Proof.
  induction k as [| k IH].
  - simpl. apply exp_0.
  - rewrite S_INR, exp_plus, IH. simpl. ring.
Qed.

(** For [M = 0] the guess is 0: [e^0 * 0.564] is below 1. *)
Lemma initial_guess_0 : initial_guess (Fin 0) = Ret 0%Z.
Proof.
  apply initial_guess_floor; [| split; [lia | reflexivity]].
  rewrite Q2R_0, exp_0.
  change (em_ratio (Fin 0)) with EM_N_RATIO.
  unfold Q2R, EM_N_RATIO; simpl. lra.
Qed.

(** For [M = 1] the guess is 1: [e * 0.564] lies between 1 and 2. *)
Lemma initial_guess_1 : initial_guess (Fin 1) = Ret 1%Z.
Proof.
  apply initial_guess_floor; [| split; [lia | reflexivity]].
  rewrite Q2R_1.
  change (em_ratio (Fin 1)) with EM_N_RATIO.
  pose proof exp_1_gt_2. pose proof exp_le_3.
  unfold Q2R, EM_N_RATIO; simpl. lra.
Qed.

(** Up to [M = 40] the guess is defined and a [long] holds it. *)
Lemma initial_guess_fits (q : Q) :
  (0 <= q <= 40)%Q ->
  exists n0, initial_guess (Fin q) = Ret n0 /\ (0 <= n0 < LONG_MAX)%Z.
Proof.
  intros [L U].
  set (x := exp (Q2R q) * Q2R (em_ratio (Fin q))).
  assert (P : 0 < x) by apply guess_product_pos.
  assert (B : x < IZR LONG_MAX).
  { unfold x.
    apply Rle_lt_trans with (exp (INR 40) * Q2R EM_N_RATIO).
    - apply Rmult_le_compat; try (left; apply exp_pos || apply Q2R_ratio_pos).
      + apply exp_le. apply Qle_Rle in U.
        replace (INR 40) with (Q2R 40); [exact U |].
        unfold Q2R; simpl; lra.
      + apply Qle_Rle, em_ratio_max.
    - rewrite exp_INR.
      apply Rle_lt_trans with (3 ^ 40 * Q2R EM_N_RATIO).
      + apply Rmult_le_compat_r; [left; apply (Q2R_ratio_pos NaN) |].
        apply pow_incr. pose proof exp_1_gt_2. pose proof exp_le_3. lra.
      + rewrite pow_IZR. unfold Q2R, EM_N_RATIO. cbn [Qnum Qden].
        apply Rmult_lt_reg_r with (IZR 1000); [apply IZR_lt; reflexivity |].
        rewrite Rmult_assoc, Rmult_assoc, Rinv_l, Rmult_1_r
          by (apply not_0_IZR; discriminate).
        rewrite <- !mult_IZR. apply IZR_lt. reflexivity. }
  pose proof (Rtrunc_bounds x (Rlt_le _ _ P)) as [TL TU].
  assert (T0 : (0 <= Rtrunc x)%Z).
  { apply Z.lt_succ_r, lt_IZR. rewrite succ_IZR. lra. }
  assert (T1 : (Rtrunc x < LONG_MAX)%Z).
  { apply lt_IZR. lra. }
  exists (Rtrunc x). split; [| lia].
  apply initial_guess_floor; [fold x; lra |].
  pose proof LONG_MAX_lt_ULONG_MOD. lia.
Qed.


(** ** A lower bound on the exponential of a harmonic number

    The guess is compared with the harmonic numbers through
    [k <= 0.5614595 * e^(H k)], which holds for every [k >= 1].  Up to
    [k = 96] it is checked on rational lower bounds of [e^(H k)]; from
    there on [e^(H k) * 0.5614595 >= k + 1/2 + 1/(24 k)] is carried along
    by induction. *)

Lemma exp_taylor_lower (x : R) (n : nat) :
  0 <= x -> sum_f_R0 (fun i => / INR (fact i) * x ^ i) n <= exp x.
Proof.
  intros P. apply sum_incr.
  - exact (proj2_sig (exist_exp x)).
  - intros i. apply Rmult_le_pos; [| now apply pow_le].
    left. apply Rinv_0_lt_compat, INR_fact_lt_0.
Qed.

Lemma Q2R_inject_Z (z : Z) : Q2R (inject_Z z) = IZR z.
Proof. unfold Q2R; simpl. lra. Qed.

Lemma Q2R_taylor_term (x : Q) (i : nat) :
  Q2R (taylor_term x i) = / INR (fact i) * Q2R x ^ i.
Proof.
  induction i as [| i IH].
  - simpl. rewrite Q2R_1. lra.
  - cbn [taylor_term]. unfold Qdiv.
    rewrite !Q2R_mult, Q2R_inv, Q2R_inject_Z, IH, <- INR_IZR_INZ.
    + rewrite fact_simpl, mult_INR. simpl pow.
      field. split; [apply INR_fact_neq_0 | apply not_0_INR; lia].
    + unfold Qeq; simpl. lia.
Qed.

Lemma Q2R_taylor_sum (x : Q) (n : nat) :
  Q2R (taylor_sum x n) = sum_f_R0 (fun i => / INR (fact i) * Q2R x ^ i) n.
Proof.
  induction n as [| n IH].
  - simpl. rewrite Q2R_1. lra.
  - cbn [taylor_sum sum_f_R0]. now rewrite Q2R_plus, IH, Q2R_taylor_term.
Qed.

Lemma taylor_sum_sound (x : Q) (n : nat) :
  (0 <= x)%Q -> 0 <= Q2R (taylor_sum x n) <= exp (Q2R x).
Proof.
  intros P. apply Qle_Rle in P. rewrite Q2R_0 in P.
  rewrite Q2R_taylor_sum. split; [| now apply exp_taylor_lower].
  apply cond_pos_sum. intros i. apply Rmult_le_pos; [| now apply pow_le].
  left. apply Rinv_0_lt_compat, INR_fact_lt_0.
Qed.

Lemma round_down_le (q : Q) : (round_down q <= q)%Q.
Proof.
  unfold round_down.
  pose proof (Qfloor_le (q * inject_Z (Z.pos SCALE))) as F.
  set (z := Qfloor (q * inject_Z (Z.pos SCALE))) in *.
  rewrite (Qmake_Qdiv z SCALE).
  apply Qle_shift_div_r; [reflexivity | exact F].
Qed.

Lemma round_down_nonneg (q : Q) : (0 <= q)%Q -> (0 <= round_down q)%Q.
Proof.
  intros P. unfold round_down.
  assert (F : (0 <= Qfloor (q * inject_Z (Z.pos SCALE)))%Z).
  { change 0%Z with (Qfloor 0). apply Qfloor_resp_le.
    apply Qmult_le_0_compat; [exact P | discriminate]. }
  set (z := Qfloor (q * inject_Z (Z.pos SCALE))) in *.
  unfold Qle; cbn [Qnum Qden]. lia.
Qed.

Lemma exp_H_lower_sound (k : nat) :
  (0 <= exp_H_lower k)%Q /\ Q2R (exp_H_lower k) <= exp (Q2R (H k)).
Proof.
  induction k as [| k [P IH]].
  - split; [discriminate |]. simpl. rewrite Q2R_0, Q2R_1, exp_0. lra.
  - cbn [exp_H_lower H].
    set (t := taylor_sum (1 # Pos.of_succ_nat k) (taylor_order (S k))).
    destruct (taylor_sum_sound (1 # Pos.of_succ_nat k) (taylor_order (S k)))
      as [T0 T1]; [discriminate |]. fold t in T0, T1.
    assert (T0' : (0 <= t)%Q) by (apply Rle_Qle; now rewrite Q2R_0).
    split.
    + apply round_down_nonneg. now apply Qmult_le_0_compat.
    + apply Rle_trans with (Q2R (exp_H_lower k * t)).
      * apply Qle_Rle, round_down_le.
      * rewrite Q2R_mult, Q2R_plus, exp_plus.
        apply Rmult_le_compat; auto.
        apply Qle_Rle in P. now rewrite Q2R_0 in P.
Qed.

Lemma check_from_BASE : check_from 0 1 BASE = true.
Proof. vm_compute. reflexivity. Qed.

Lemma check_from_sound (count : nat) : forall k,
  check_from k (exp_H_lower k) count = true ->
  (forall j, (k < j <= k + count)%nat ->
     (inject_Z (Z.of_nat j) <= EM_N_RATIO_COLOSSAL * exp_H_lower j)%Q) /\
  (fQ (k + count) <= EM_N_RATIO_COLOSSAL * exp_H_lower (k + count))%Q.
Proof.
  induction count as [| count IH]; intros k C.
  - rewrite Nat.add_0_r. split; [intros j B; lia |].
    now apply Qle_bool_iff.
  - cbn [check_from] in C. apply andb_true_iff in C as [C1 C2].
    change (round_down _) with (exp_H_lower (S k)) in C1, C2.
    destruct (IH (S k) C2) as [A B].
    replace (k + S count)%nat with (S k + count)%nat by lia.
    split; [| exact B].
    intros j J. destruct (Nat.eq_dec j (S k)) as [-> | NE].
    + now apply Qle_bool_iff.
    + apply A. lia.
Qed.

Lemma step_poly (k : R) :
  1 <= k ->
  fR (k + 1) <=
  fR k * (1 + / (k + 1) + (/ (k + 1)) ^ 2 / 2 + (/ (k + 1)) ^ 3 / 6).
Proof.
  intros K. unfold fR.
  assert (E : (k + / 2 + / (24 * k)) *
              (1 + / (k + 1) + (/ (k + 1)) ^ 2 / 2 + (/ (k + 1)) ^ 3 / 6)
              - (k + 1 + / 2 + / (24 * (k + 1)))
              = (3 * k + 16) / (144 * k * (k + 1) ^ 3))
    by (field; lra).
  assert (P : 0 < (3 * k + 16) / (144 * k * (k + 1) ^ 3)).
  { apply Rdiv_lt_0_compat; [lra |].
    apply Rmult_lt_0_compat; [lra | apply pow_lt; lra]. }
  lra.
Qed.

Lemma taylor_cubic (x : R) :
  sum_f_R0 (fun i => / INR (fact i) * x ^ i) 3
  = 1 + x + x ^ 2 / 2 + x ^ 3 / 6.
Proof. simpl. field. Qed.

Lemma Q2R_recip_succ (k : nat) : Q2R (1 # Pos.of_succ_nat k) = / (INR k + 1).
Proof.
  unfold Q2R. cbn [Qnum Qden].
  change (Z.pos (Pos.of_succ_nat k)) with (Z.of_nat (S k)).
  rewrite <- INR_IZR_INZ, S_INR. lra.
Qed.

Lemma exp_H_from_BASE (k : nat) :
  (BASE <= k)%nat ->
  fR (INR k) <= Q2R EM_N_RATIO_COLOSSAL * exp (Q2R (H k)).
Proof.
  induction 1 as [| k L IH].
  - destruct (exp_H_lower_sound BASE) as [P S].
    destruct (check_from_sound BASE 0 check_from_BASE) as [_ B].
    apply Qle_Rle in B. rewrite Q2R_mult in B.
    apply Rle_trans with
      (Q2R EM_N_RATIO_COLOSSAL * Q2R (exp_H_lower BASE)).
    + apply Rle_trans with (2 := B). right.
      unfold fQ. rewrite !Q2R_plus, Q2R_inv, !Q2R_inject_Z by discriminate.
      unfold fR, BASE. rewrite INR_IZR_INZ.
      unfold Q2R; simpl. lra.
    + apply Rmult_le_compat_l; [| exact S].
      left. apply (Q2R_ratio_pos PInf).
  - assert (K : 1 <= INR k).
    { change 1 with (INR 1). apply le_INR. unfold BASE in L. lia. }
    cbn [H]. rewrite Q2R_plus, exp_plus, Q2R_recip_succ, S_INR.
    apply Rle_trans with (1 := step_poly (INR k) K).
    rewrite <- taylor_cubic, <- Rmult_assoc.
    apply Rmult_le_compat.
    + unfold fR. assert (0 < / (24 * INR k)) by (apply Rinv_0_lt_compat; lra).
      lra.
    + apply cond_pos_sum. intros i.
      apply Rmult_le_pos; [| apply pow_le].
      * left. apply Rinv_0_lt_compat, INR_fact_lt_0.
      * left. apply Rinv_0_lt_compat. lra.
    + exact IH.
    + apply exp_taylor_lower. left. apply Rinv_0_lt_compat. lra.
Qed.

(** The bound itself: [k <= 0.5614595 * e^(H k)]. *)
Lemma harmonic_exp_bound (k : nat) :
  (1 <= k)%nat -> INR k <= Q2R EM_N_RATIO_COLOSSAL * exp (Q2R (H k)).
Proof.
  intros K. destruct (le_lt_dec BASE k) as [L | L].
  - apply Rle_trans with (2 := exp_H_from_BASE k L).
    assert (1 <= INR k) by (change 1 with (INR 1); now apply le_INR).
    unfold fR. assert (0 < / (24 * INR k)) by (apply Rinv_0_lt_compat; lra).
    lra.
  - destruct (check_from_sound BASE 0 check_from_BASE) as [C _].
    specialize (C k ltac:(lia)).
    apply Qle_Rle in C. rewrite Q2R_mult, Q2R_inject_Z, <- INR_IZR_INZ in C.
    apply Rle_trans with (1 := C).
    apply Rmult_le_compat_l; [| apply exp_H_lower_sound].
    left. apply (Q2R_ratio_pos PInf).
Qed.

(** The guess is at least every [k] whose harmonic number does not exceed
    the threshold. *)
Lemma guess_adequate (q : Q) (n0 : Z) (k : nat) :
  initial_guess (Fin q) = Ret n0 ->
  (1 <= k)%nat -> (H k <= q)%Q -> (Z.of_nat k <= n0)%Z.
Proof.
  intros G K L. apply initial_guess_inv in G as [_ [_ U]].
  apply Z.lt_succ_r, lt_IZR. rewrite succ_IZR, <- INR_IZR_INZ.
  apply Rle_lt_trans with (2 := U).
  apply Rle_trans with (1 := harmonic_exp_bound k K).
  rewrite Rmult_comm.
  apply Rmult_le_compat.
  - left. apply exp_pos.
  - left. apply (Q2R_ratio_pos PInf).
  - apply exp_le. now apply Qle_Rle.
  - apply Qle_Rle, em_ratio_min.
Qed.

(** ** The search as a whole *)

Local Open Scope Z_scope.

Lemma hseriesThreshold_spec (m : Q) :
  (0 <= m <= 40)%Q ->
  exists n0 N G,
    initial_guess (Fin m) = Ret n0 /\
    hseriesThreshold (Fin m) = Ret (N, G) /\
    1 <= N <= n0 + 1 /\
    (N = 1 \/ (H (Z.to_nat (N - 1)) <= m - DELTA)%Q) /\
    (m - DELTA < H (Z.to_nat N))%Q /\
    (N <= n0 -> G =ld= Fin (H (Z.to_nat N))).
Proof.
  intros B.
  destruct (initial_guess_fits m B) as (n0 & E & R).
  destruct (refine_from_spec m n0 R) as (N & G & F & RN & Below & Ran & Not).
  exists n0, N, G. unfold hseriesThreshold. rewrite E. cbn [bind].
  repeat split; auto; try lia.
  - destruct (Z_le_gt_dec N n0) as [L | L]; [now apply Ran |].
    assert (N = n0 + 1) as -> by lia.
    apply Qnot_le_lt. intros A.
    assert (D : (0 < DELTA)%Q) by reflexivity.
    pose proof (guess_adequate m n0 (Z.to_nat (n0 + 1)) E ltac:(lia)
                  ltac:(lra)).
    lia.
  - intros L. now apply Ran.
Qed.

Lemma crossing_within_DELTA_intro (m : Q) (N : Z) :
  1 <= N ->
  (N = 1 \/ (H (Z.to_nat (N - 1)) <= m - DELTA)%Q) ->
  (m - DELTA < H (Z.to_nat N))%Q ->
  crossing_within_DELTA m N.
Proof.
  intros P Below Above. repeat split; auto.
  intros k K A. destruct Below as [-> | Below]; [lia |].
  destruct (Z_le_gt_dec N k) as [L | L]; [exact L | exfalso].
  pose proof (H_mono (Z.to_nat k) (Z.to_nat (N - 1)) ltac:(lia)). lra.
Qed.

Lemma hseriesThreshold_one : hseriesThreshold (Fin 1) = Ret (1, Fin 1).
Proof.
  unfold hseriesThreshold. rewrite initial_guess_1. reflexivity.
Qed.

Lemma hseriesThreshold_zero : hseriesThreshold (Fin 0) = Ret (1, Fin 0).
Proof.
  unfold hseriesThreshold. rewrite initial_guess_0. reflexivity.
Qed.

Lemma ld_sum_asc_pos (start : Z) (len : nat) :
  0 < start -> ld_sum_asc start len = Fin (recip_sum start len).
Proof.
  intros P. induction len as [| len IH]; [reflexivity |].
  cbn [ld_sum_asc recip_sum]. rewrite IH, ld_recip_pos by lia. reflexivity.
Qed.

Lemma minimal_crossing_0 : minimal_crossing 0 1.
Proof. split; [reflexivity | discriminate]. Qed.

Lemma minimal_crossing_1 : minimal_crossing 1 2.
Proof. split; [reflexivity | discriminate]. Qed.

(** * The claims *)




(** C2, as amended.  For [M = 1.0] the search returns [N = 1]: the guess is
    1, the sum up to 1 is 1.0, and since [1.0 - M = 0 > -DELTA] the loop
    removes that term too, leaving [n = 0]. *)
Theorem threshold_at_one :
  hseriesThreshold (Fin 1) = Ret (1, Fin 1) /\
  harmonicSeries 1 = Ret (Fin (0 + 1 / 1)) /\
  loop_cond (Fin 1)
    {| st_n := 1; st_sum := Fin (0 + 1 / 1); st_G_sum := Fin (0 + 1 / 1) |}
  = true.
Proof. repeat split; try reflexivity. apply hseriesThreshold_one. Qed.

(** C2 as stated fails: the value returned for [M = 1.0] is not 2. *)
Lemma threshold_at_one_is_not_two :
  ~ (exists G, hseriesThreshold (Fin 1) = Ret (2, G)).
Proof.
  intros [G E]. rewrite hseriesThreshold_one in E. discriminate.
Qed.

(** C3, at the inputs where the code departs from it.  For [M = 0] the
    initial guess is 0 and for [M = 1] it is 1, while the minimal crossing
    points are 1 and 2: the guess is below the crossing point. *)
Theorem guess_below_crossing :
  initial_guess (Fin 0) = Ret 0 /\ minimal_crossing 0 1 /\
  initial_guess (Fin 1) = Ret 1 /\ minimal_crossing 1 2.
Proof.
  repeat split; try reflexivity; try discriminate.
  - apply initial_guess_0.
  - apply initial_guess_1.
Qed.



(** C5, at the input where the code departs from it.  For [M = 0] the
    search returns [N = 1] and leaves 0 in [G_sum], which is not the
    harmonic sum at 1. *)
Theorem last_sum_at_zero :
  hseriesThreshold (Fin 0) = Ret (1, Fin 0) /\ ~ (Fin 0 =ld= Fin (H 1)).
Proof.
  split; [apply hseriesThreshold_zero | discriminate].
Qed.





(** C9.  From every state the refinement loop terminates: fuel above [n]
    is enough and more fuel changes nothing, the state returned is reached
    by iterating the body and fails the loop condition; each iteration
    decrements [n] by one and the loop is not entered at [n = 0]. *)
Theorem refinement_terminates (M : ldouble) (s : state) :
  (exists s',
     (forall extra,
        while_loop (S (Z.to_nat (st_n s)) + extra) M s = Ret s') /\
     reaches M s s' /\
     loop_cond M s' = false /\
     (0 <= st_n s -> 0 <= st_n s' <= st_n s)) /\
  (loop_cond M s = true -> st_n s <= ULONG_MOD ->
   st_n (loop_body s) = st_n s - 1) /\
  (st_n s <= 0 -> loop_cond M s = false).
Proof.
  repeat split.
  - destruct (while_loop_returns M (S (Z.to_nat (st_n s))) s ltac:(lia))
      as (s' & E & R & X).
    exists s'. repeat split; auto.
    + intros extra. now apply while_loop_fuel.
    + now apply (reaches_n_le M s s').
    + now apply (reaches_n_le M s s').
  - apply loop_body_decrements.
  - apply loop_cond_zero.
Qed.

Lemma refinement_terminates_witness :
  exists s',
    while_loop 4 (Fin 1) {| st_n := 3; st_sum := Fin 2; st_G_sum := Fin 2 |}
    = Ret s' /\
    0 <= st_n s' <= 3.
Proof.
  destruct (proj1 (refinement_terminates (Fin 1)
                     {| st_n := 3; st_sum := Fin 2; st_G_sum := Fin 2 |}))
    as (s' & E & _ & _ & B).
  exists s'. split; [exact (E 0%nat) | apply B; simpl; lia].
Defined.

(** ** The command line *)

Local Open Scope string_scope.

Lemma main_usage (strtold : string -> ldouble * string) (argv : list string) :
  List.length argv <> 2%nat ->
  main strtold argv = ([PrintUsage (hd "" argv)], Ret (-1)).
Proof.
  intros L. unfold main.
  destruct (Nat.eqb_spec (List.length argv) 2); [contradiction | reflexivity].
Qed.

Lemma main_parsed (strtold : string -> ldouble * string) (argv : list string)
    (M : ldouble) (rest : string) :
  List.length argv = 2%nat -> strtold (nth 1 argv "") = (M, rest) ->
  main strtold argv =
  if negb (String.eqb rest "") then
    ([PrintInvalidInput (hd "" argv)], Ret (-1))
  else if ld_lt M (Fin 0) then ([PrintNegative], Ret (-1))
  else
    match hseriesThreshold M with
    | Ret (N, G) => ([CallThreshold M; PrintThreshold M N; PrintSum N G], Ret 0)
    | Undefined => ([CallThreshold M], Undefined)
    | OutOfFuel => ([CallThreshold M], OutOfFuel)
    end.
Proof.
  intros L E. unfold main. rewrite L, E. reflexivity.
Qed.

(** C8.  With a wrong argument count, with an argument that [strtold] does
    not consume to its end, and with a parsed value below zero, [main]
    prints its one message and returns -1 without calling the search;
    otherwise it calls the search and, when that returns, prints the two
    result lines and returns 0. *)
Theorem main_error_paths (strtold : string -> ldouble * string)
    (argv : list string) (M : ldouble) (rest : string) :
  (List.length argv <> 2%nat ->
   main strtold argv = ([PrintUsage (hd "" argv)], Ret (-1))) /\
  (List.length argv = 2%nat -> strtold (nth 1 argv "") = (M, rest) ->
   (rest <> "" ->
    main strtold argv = ([PrintInvalidInput (hd "" argv)], Ret (-1))) /\
   (rest = "" -> ld_lt M (Fin 0) = true ->
    main strtold argv = ([PrintNegative], Ret (-1))) /\
   (rest = "" -> ld_lt M (Fin 0) = false ->
    forall N G, hseriesThreshold M = Ret (N, G) ->
    main strtold argv =
    ([CallThreshold M; PrintThreshold M N; PrintSum N G], Ret 0))) /\
  (snd (main strtold argv) = Ret (-1) ->
   calls_threshold (fst (main strtold argv)) = false).
Proof.
  split; [apply main_usage |]. split.
  - intros L E. rewrite (main_parsed strtold argv M rest L E).
    split; [| split].
    + intros NE. apply String.eqb_neq in NE. now rewrite NE.
    + intros -> Neg. now rewrite Neg.
    + intros -> Pos N G T. now rewrite Pos, T.
  - destruct (Nat.eq_dec (List.length argv) 2) as [L | L].
    + destruct (strtold (nth 1 argv "")) as [M' rest'] eqn:E.
      rewrite (main_parsed strtold argv M' rest' L E).
      destruct (negb (rest' =? "")); [reflexivity |].
      destruct (ld_lt M' (Fin 0)); [reflexivity |].
      destruct (hseriesThreshold M') as [[N G] | |]; discriminate.
    + now rewrite (main_usage strtold argv L).
Qed.

Lemma main_error_paths_witness :
  main strtold_model ["hseries"] = ([PrintUsage "hseries"], Ret (-1)) /\
  main strtold_model ["hseries"; "12abc"]
  = ([PrintInvalidInput "hseries"], Ret (-1)) /\
  main strtold_model ["hseries"; "-1"] = ([PrintNegative], Ret (-1)) /\
  main strtold_model ["hseries"; "0"]
  = ([CallThreshold (Fin 0); PrintThreshold (Fin 0) 1; PrintSum 1 (Fin 0)],
     Ret 0) /\
  calls_threshold (fst (main strtold_model ["hseries"; "-1"])) = false.
Proof.
  refine (conj _ (conj _ (conj _ (conj _ _)))).
  - apply (proj1 (main_error_paths strtold_model ["hseries"] NaN "")).
    discriminate.
  - apply (proj1 (proj2 (main_error_paths strtold_model ["hseries"; "12abc"]
                           (Fin 12) "abc")));
      [reflexivity | reflexivity | discriminate].
  - apply (proj1 (proj2 (main_error_paths strtold_model ["hseries"; "-1"]
                           (Fin (-1)) "")));
      reflexivity.
  - apply (proj1 (proj2 (main_error_paths strtold_model ["hseries"; "0"]
                           (Fin 0) "")));
      try reflexivity.
    apply hseriesThreshold_zero.
  - apply (proj2 (proj2 (main_error_paths strtold_model ["hseries"; "-1"]
                           (Fin (-1)) ""))).
    reflexivity.
Defined.

(** C10.  Whenever [strtold] consumes the strings [inf], [nan] and the
    empty string to their end, giving infinity, a NaN and zero, [main]
    takes none of its error branches: the value is passed to the search
    (whose conversion of an infinity or a NaN to [unsigned long] is
    undefined; for the empty string it runs as for 0). *)
Theorem main_accepts_inf_nan_empty (strtold : string -> ldouble * string)
    (prog : string) :
  strtold "inf" = (PInf, "") ->
  strtold "nan" = (NaN, "") ->
  strtold "" = (Fin 0, "") ->
  main strtold [prog; "inf"] = ([CallThreshold PInf], Undefined) /\
  main strtold [prog; "nan"] = ([CallThreshold NaN], Undefined) /\
  main strtold [prog; ""]
  = ([CallThreshold (Fin 0); PrintThreshold (Fin 0) 1; PrintSum 1 (Fin 0)],
     Ret 0).
Proof.
  intros I N E. refine (conj _ (conj _ _)).
  - now rewrite (main_parsed strtold [prog; "inf"] PInf "" eq_refl I).
  - now rewrite (main_parsed strtold [prog; "nan"] NaN "" eq_refl N).
  - rewrite (main_parsed strtold [prog; ""] (Fin 0) "" eq_refl E).
    cbn [String.eqb negb ld_lt Qle_bool Qnum Qden Z.mul Z.leb Z.compare].
    now rewrite hseriesThreshold_zero.
Qed.

Lemma main_accepts_inf_nan_empty_witness :
  strtold_model "inf" = (PInf, "") /\
  strtold_model "nan" = (NaN, "") /\
  strtold_model "" = (Fin 0, "") /\
  main strtold_model ["hseries"; "inf"] = ([CallThreshold PInf], Undefined) /\
  main strtold_model ["hseries"; "nan"] = ([CallThreshold NaN], Undefined) /\
  main strtold_model ["hseries"; ""]
  = ([CallThreshold (Fin 0); PrintThreshold (Fin 0) 1; PrintSum 1 (Fin 0)],
     Ret 0).
Proof.
  refine (conj eq_refl (conj eq_refl (conj eq_refl _))).
  apply (main_accepts_inf_nan_empty strtold_model "hseries"); reflexivity.
Defined.
